(** * VROOM solution indicators: aggregation and the objective comparator

    A shallow embedding of [src/structures/vroom/solution_indicators.h]
    (namespace [vroom::utils]): the [SolutionIndicators] struct, its
    aggregating constructor and its [operator<], which the specification
    calls [betterThan]. *)

From Stdlib Require Import ZArith NArith Lia List Bool.
From stdpp Require Import base list sorting.

Local Open Scope Z_scope.

(** ** Machine integers

    Unsigned fields are values of [N], signed ones values of [Z]; every
    arithmetic step of the source is followed by the conversion to the C++
    type of its result, written out as a reduction modulo a power of two. *)

Definition wrap_unsigned (bits : N) (x : Z) : Z := x mod 2 ^ Z.of_N bits.

Definition wrap_signed (bits : N) (x : Z) : Z :=
  (x + 2 ^ (Z.of_N bits - 1)) mod 2 ^ Z.of_N bits - 2 ^ (Z.of_N bits - 1).

(** [static_cast<int64_t>] and the result of an [int64_t] operation. *)
Definition to_int64 (x : Z) : Z := wrap_signed 64 x.

(** Conversion to [unsigned] and to [uint32_t]. *)
Definition to_uint32 (x : Z) : N := Z.to_N (wrap_unsigned 32 x).

(** ** Eval *)

(** Modelled from the spec: the [Eval] struct (structures/vroom/eval.h) is
    not among the sources.  It is the triple of accumulators
    [(cost, duration, distance)] over a 64-bit domain; its default value is
    the identity (zero) and combining two of them sums each component
    independently. *)
Record Eval : Type := mkEval { cost : Z; duration : Z; distance : Z }.

Definition Eval_default : Eval := mkEval 0 0 0.

(** [operator+=] of [Eval]. *)
Definition Eval_add (lhs rhs : Eval) : Eval :=
  mkEval (to_int64 (cost lhs + cost rhs))
         (to_int64 (duration lhs + duration rhs))
         (to_int64 (distance lhs + distance rhs)).

(** ** SolutionIndicators *)

Record SolutionIndicators : Type := mkSolutionIndicators {
  priority_sum : N;      (* Priority priority_sum{0} *)
  assigned : N;          (* unsigned assigned{0} *)
  eval : Eval;           (* Eval eval *)
  used_vehicles : N;     (* unsigned used_vehicles{0} *)
  routes_hash : N        (* uint32_t routes_hash *)
}.

(** The scaling constants live in structures/typedefs.h, which is not among
    the sources; their values are the ones the comment above
    [PRIORITY_SCALE] documents: [100 * 3600 = 360,000]. *)
Definition DURATION_FACTOR : Z := 100.
Definition COST_FACTOR : Z := 3600.
Definition PRIORITY_SCALE : Z := to_int64 (DURATION_FACTOR * COST_FACTOR).

(** ** std::tuple comparison

    [operator<] of [std::tuple], as the standard defines it: the empty
    tuples are not ordered, and otherwise
    [get<0>(l) < get<0>(r) || (!(get<0>(r) < get<0>(l)) && ltail < rtail)].
    Every position of the tuples built by [std::tie] below compares two
    values of one integer type, so a tuple is embedded as the list of its
    components in [Z]. *)
Fixpoint tuple_lt (l r : list Z) : bool :=
  match l, r with
  | x :: l', y :: r' => (x <? y) || (negb (y <? x) && tuple_lt l' r')
  | _, _ => false
  end.

(** ** The comparator *)

(** [const bool using_priorities = (lhs.priority_sum > 0) || (rhs.priority_sum > 0)] *)
Definition using_priorities (lhs rhs : SolutionIndicators) : bool :=
  (0 <? priority_sum lhs)%N || (0 <? priority_sum rhs)%N.

(** [static_cast<int64_t>(s.priority_sum) * PRIORITY_SCALE - s.eval.cost],
    each step in [int64_t]. *)
Definition profit (s : SolutionIndicators) : Z :=
  to_int64 (to_int64 (to_int64 (Z.of_N (priority_sum s)) * PRIORITY_SCALE)
            - cost (eval s)).

(** The tie-break tuples of the profit branch. *)
Definition profit_tie (x y : SolutionIndicators) : list Z :=
  [Z.of_N (assigned y);
   Z.of_N (used_vehicles x);
   duration (eval x);
   distance (eval x);
   Z.of_N (routes_hash x)].

(** The tuples of the default branch. *)
Definition default_tie (x y : SolutionIndicators) : list Z :=
  [Z.of_N (assigned y);
   cost (eval x);
   Z.of_N (used_vehicles x);
   duration (eval x);
   distance (eval x);
   Z.of_N (routes_hash x)].

(** The branch under [if (using_priorities)]. *)
Definition profit_branch (lhs rhs : SolutionIndicators) : bool :=
  let lhs_profit := profit lhs in
  let rhs_profit := profit rhs in
  if negb (lhs_profit =? rhs_profit) then lhs_profit >? rhs_profit
  else tuple_lt (profit_tie lhs rhs) (profit_tie rhs lhs).

(** The final [return]: the default lexicographic comparison. *)
Definition default_branch (lhs rhs : SolutionIndicators) : bool :=
  tuple_lt (default_tie lhs rhs) (default_tie rhs lhs).

(** [friend bool operator<(const SolutionIndicators& lhs, const SolutionIndicators& rhs)] *)
Definition operator_lt (lhs rhs : SolutionIndicators) : bool :=
  if using_priorities lhs rhs then profit_branch lhs rhs
  else default_branch lhs rhs.

(** The specification's name for the relation: [betterThan a b] is [a < b]. *)
Definition betterThan (a b : SolutionIndicators) : bool := operator_lt a b.

(** ** The defaulted constructor

    [SolutionIndicators() = default]: every member with an initializer gets
    it, [eval] gets the default [Eval], and [routes_hash], which has no
    initializer, keeps whatever the storage holds.  That content is the
    argument [indeterminate]. *)
Definition SolutionIndicators_default (indeterminate : N) : SolutionIndicators :=
  mkSolutionIndicators 0 0 Eval_default 0 indeterminate.

(** ** The aggregating constructor *)

(** What the constructor template asks of its [Route] parameter: the member
    [r.route] (the ordered job ranks, a vector), [r.empty()] and
    [std::size(r)]. *)
Class RouteLike (Route Job : Type) : Type := {
  route : Route -> list Job;
  empty : Route -> bool;
  size : Route -> N
}.

(** [std::ranges::sort] on a vector of [uint32_t]: ascending order. *)
Definition ranges_sort (v : list N) : list N := merge_sort N.le v.

(** ** Sums used to state what the constructor accumulates *)

Definition Zsum (l : list Z) : Z := foldr Z.add 0 l.

(** The componentwise sum of a list of [Eval]s in unbounded integers, and its
    reduction to the 64-bit components of the accumulator. *)
Definition Eval_total (l : list Eval) : Eval :=
  mkEval (Zsum (map cost l)) (Zsum (map duration l)) (Zsum (map distance l)).

Definition Eval_to_int64 (e : Eval) : Eval :=
  mkEval (to_int64 (cost e)) (to_int64 (duration e)) (to_int64 (distance e)).

(** Every component lies in the signed 64-bit range. *)
Definition Eval_in_range (e : Eval) : Prop :=
  - 2 ^ 63 <= cost e < 2 ^ 63 /\
  - 2 ^ 63 <= duration e < 2 ^ 63 /\
  - 2 ^ 63 <= distance e < 2 ^ 63.

(** The number of routes that are not empty. *)
Definition count_non_empty {Route Job : Type} `{RouteLike Route Job}
  (sol : list Route) : nat :=
  length (filter (fun r => negb (empty r) = true) sol).

Section Aggregator.

(** The collaborators of utils/helpers.h and structures/typedefs.h, none of
    which is among the sources: the widths of the unsigned typedefs
    [Priority] and [Index], the two cost-model functions and the hash of a
    vector. *)
Context {Input Route Job : Type} `{RouteLike Route Job}.
Variable Priority_bits : N.
Variable Index_bits : N.
Variable priority_sum_for_route : Input -> list Job -> N.
Variable route_eval_for_vehicle : Input -> N -> list Job -> Eval.
Variable get_vector_hash : list N -> N.

Definition to_Priority (x : Z) : N := Z.to_N (wrap_unsigned Priority_bits x).
Definition to_Index (x : Z) : N := Z.to_N (wrap_unsigned Index_bits x).

(** One iteration of [for (const auto& r : sol)], on the object under
    construction and the local [v_rank]. *)
Definition ctor_step (input : Input)
  (st : SolutionIndicators * N) (r : Route) : SolutionIndicators * N :=
  let '(s, v_rank) := st in
  (* priority_sum += utils::priority_sum_for_route(input, r.route); *)
  let priority_sum' :=
    to_Priority (Z.of_N (priority_sum s)
                 + Z.of_N (priority_sum_for_route input (route r))) in
  (* assigned += r.route.size(); *)
  let assigned' :=
    to_uint32 (Z.of_N (assigned s) + Z.of_nat (length (route r))) in
  (* eval += utils::route_eval_for_vehicle(input, v_rank, r.route); *)
  let eval' :=
    Eval_add (eval s) (route_eval_for_vehicle input v_rank (route r)) in
  (* ++v_rank; *)
  let v_rank' := to_Index (Z.of_N v_rank + 1) in
  (* if (!r.empty()) { used_vehicles += 1; } *)
  let used_vehicles' :=
    if negb (empty r) then to_uint32 (Z.of_N (used_vehicles s) + 1)
    else used_vehicles s in
  (mkSolutionIndicators priority_sum' assigned' eval' used_vehicles'
                        (routes_hash s),
   v_rank').

(** The whole loop, from the delegated default construction and
    [Index v_rank = 0]. *)
Definition ctor_loop (indeterminate : N) (input : Input) (sol : list Route)
  : SolutionIndicators * N :=
  fold_left (ctor_step input) sol (SolutionIndicators_default indeterminate, 0%N).

(** [routes_sizes]: [std::size(r)] of every route, stored as [uint32_t],
    then sorted. *)
Definition routes_sizes (sol : list Route) : list N :=
  ranges_sort (map (fun r => to_uint32 (Z.of_N (size r))) sol).

(** The constructor, for a given content of the uninitialized member. *)
Definition SolutionIndicators_ctor_from (indeterminate : N)
  (input : Input) (sol : list Route) : SolutionIndicators :=
  let s := fst (ctor_loop indeterminate input sol) in
  mkSolutionIndicators (priority_sum s) (assigned s) (eval s) (used_vehicles s)
                       (get_vector_hash (routes_sizes sol)).

(** [SolutionIndicators(const Input& input, const std::vector<Route>& sol)].
    The member [routes_hash] is assigned before the constructor returns, so
    the content it started with is immaterial (lemma [ctor_from_indep]
    below); zero is taken. *)
Definition SolutionIndicators_ctor (input : Input) (sol : list Route)
  : SolutionIndicators :=
  SolutionIndicators_ctor_from 0 input sol.

(** *** What the constructor is expected to accumulate *)

(** The value [v_rank] holds when the loop reaches the route at position
    [i]. *)
Definition rank_of (i : nat) : N := to_Index (Z.of_nat i).

(** The per-route evaluations, each computed with the rank of its route. *)
Definition route_evals (input : Input) (sol : list Route) : list Eval :=
  imap (fun i r => route_eval_for_vehicle input (rank_of i) (route r)) sol.

(** The exact sum of the per-route priority sums, and of the job counts. *)
Definition priority_total (input : Input) (sol : list Route) : Z :=
  Zsum (map (fun r => Z.of_N (priority_sum_for_route input (route r))) sol).

Definition assigned_total (sol : list Route) : Z :=
  Zsum (map (fun r => Z.of_nat (length (route r))) sol).

(** The state of the loop once the routes of [done] have been visited, in
    closed form. *)
Definition loop_state (h : N) (input : Input) (done : list Route)
  : SolutionIndicators * N :=
  (mkSolutionIndicators
     (to_Priority (priority_total input done))
     (to_uint32 (assigned_total done))
     (Eval_to_int64 (Eval_total (route_evals input done)))
     (to_uint32 (Z.of_nat (count_non_empty done)))
     h,
   rank_of (length done)).

(** The sizes collected into [routes_sizes], before they are narrowed to
    [uint32_t]. *)
Definition collected_sizes (sol : list Route) : list N := map size sol.

(** No accumulator leaves the range of its type: the totals fit
    [Priority], [unsigned] and the 64-bit components of [Eval], every rank
    fits [Index] and every size fits [uint32_t]. *)
Definition sums_fit (input : Input) (sol : list Route) : Prop :=
  priority_total input sol < 2 ^ Z.of_N Priority_bits /\
  assigned_total sol < 2 ^ 32 /\
  Eval_in_range (Eval_total (route_evals input sol)) /\
  Z.of_nat (length sol) <= 2 ^ Z.of_N Index_bits /\
  Z.of_nat (count_non_empty sol) < 2 ^ 32 /\
  Forall (fun r => Z.of_N (size r) < 2 ^ 32) sol.

End Aggregator.

(** ** The specification's reading of the comparator

    The two cascades as the specification words them, criterion by
    criterion, to be compared with [operator_lt]. *)

Definition SCALE : Z := 360000.

(** "profit = priority_sum * SCALE - eval.cost", in the signed 64-bit range. *)
Definition spec_profit (s : SolutionIndicators) : Z :=
  to_int64 (Z.of_N (priority_sum s) * SCALE - cost (eval s)).

(** Priority (profit) mode: higher profit wins; then more assigned jobs,
    fewer used vehicles, lower duration, lower distance, lower hash. *)
Definition betterThan_profit_spec (a b : SolutionIndicators) : bool :=
  if negb (spec_profit a =? spec_profit b) then spec_profit b <? spec_profit a
  else if negb (assigned a =? assigned b)%N then (assigned b <? assigned a)%N
  else if negb (used_vehicles a =? used_vehicles b)%N
       then (used_vehicles a <? used_vehicles b)%N
  else if negb (duration (eval a) =? duration (eval b))
       then duration (eval a) <? duration (eval b)
  else if negb (distance (eval a) =? distance (eval b))
       then distance (eval a) <? distance (eval b)
  else (routes_hash a <? routes_hash b)%N.

(** Lexicographic mode: more assigned jobs wins; then lower cost, fewer used
    vehicles, lower duration, lower distance, lower hash. *)
Definition betterThan_lexicographic_spec (a b : SolutionIndicators) : bool :=
  if negb (assigned a =? assigned b)%N then (assigned b <? assigned a)%N
  else if negb (cost (eval a) =? cost (eval b))
       then cost (eval a) <? cost (eval b)
  else if negb (used_vehicles a =? used_vehicles b)%N
       then (used_vehicles a <? used_vehicles b)%N
  else if negb (duration (eval a) =? duration (eval b))
       then duration (eval a) <? duration (eval b)
  else if negb (distance (eval a) =? distance (eval b))
       then distance (eval a) <? distance (eval b)
  else (routes_hash a <? routes_hash b)%N.

(** Two indicators that agree on every field but [routes_hash]. *)
Definition same_but_hash (a b : SolutionIndicators) : Prop :=
  priority_sum a = priority_sum b /\ assigned a = assigned b /\
  eval a = eval b /\ used_vehicles a = used_vehicles b.

(** The three indicators of a comparison chain come from one priority
    regime: all carry priority, or none does. *)
Definition same_regime (a b c : SolutionIndicators) : Prop :=
  ((0 < priority_sum a)%N /\ (0 < priority_sum b)%N /\ (0 < priority_sum c)%N)
  \/ (priority_sum a = 0%N /\ priority_sum b = 0%N /\ priority_sum c = 0%N).

(** ** Sort keys

    Each branch of [operator_lt] orders the indicators by one key, smaller
    keys first: the criteria that are maximised enter it negated. *)
Definition profit_key (s : SolutionIndicators) : list Z :=
  [- profit s;
   - Z.of_N (assigned s);
   Z.of_N (used_vehicles s);
   duration (eval s);
   distance (eval s);
   Z.of_N (routes_hash s)].

Definition default_key (s : SolutionIndicators) : list Z :=
  [- Z.of_N (assigned s);
   cost (eval s);
   Z.of_N (used_vehicles s);
   duration (eval s);
   distance (eval s);
   Z.of_N (routes_hash s)].

(** ** An instance to evaluate the constructor on

    The constructor is generic in its route type and in the cost model.
    This small instance (routes as plain lists of job ranks, priorities and
    fixed costs read from tables, a shift-and-xor hash) is what the
    concrete examples below are computed with. *)
Record SampleInput : Type := mkSampleInput {
  job_priority : list N;
  vehicle_fixed_cost : list Z
}.

#[global] Instance sample_route : RouteLike (list nat) nat := {|
  route := fun r => r;
  empty := fun r => match r with [] => true | _ :: _ => false end;
  size := fun r => N.of_nat (length r)
|}.

Definition sample_priority_sum_for_route (input : SampleInput)
  (r : list nat) : N :=
  fold_left (fun acc j => (acc + nth j (job_priority input) 0)%N) r 0%N.

Definition sample_route_eval_for_vehicle (input : SampleInput) (v_rank : N)
  (r : list nat) : Eval :=
  match r with
  | [] => Eval_default
  | _ :: _ =>
      mkEval (nth (N.to_nat v_rank) (vehicle_fixed_cost input) 0
              + 10 * Z.of_nat (length r))
             (7 * Z.of_nat (length r))
             (3 * Z.of_nat (length r))
  end.

Definition sample_vector_hash (v : list N) : N :=
  fold_left
    (fun seed x =>
       to_uint32 (Z.lxor (Z.of_N seed)
                    (Z.of_N x + 2654435769
                     + Z.shiftl (Z.of_N seed) 6 + Z.shiftr (Z.of_N seed) 2)))
    v (to_uint32 (Z.of_nat (length v))).

Definition sample_ctor : SampleInput -> list (list nat) -> SolutionIndicators :=
  SolutionIndicators_ctor 32 16 sample_priority_sum_for_route
    sample_route_eval_for_vehicle sample_vector_hash.

Definition sample_input : SampleInput :=
  mkSampleInput [3; 0; 5; 1; 2]%N [100; 200; 300].

(** ** Notions used to state further properties *)

(** Neither operand is better than the other: the equivalence a sort by
    [operator<] cannot tell apart. *)
Definition incomparable (a b : SolutionIndicators) : Prop :=
  betterThan a b = false /\ betterThan b a = false.

(** The profit in unbounded integers. *)
Definition exact_profit (s : SolutionIndicators) : Z :=
  Z.of_N (priority_sum s) * SCALE - cost (eval s).

(** An operand whose [priority_sum] fits 32 bits and whose cost is a
    non-negative 64-bit value. *)
Definition profit_operand_in_range (s : SolutionIndicators) : Prop :=
  (priority_sum s < 2 ^ 32)%N /\ 0 <= cost (eval s) < 2 ^ 63.

(** [r.empty()] answers for the vector [r.route]. *)
Definition empty_agrees_with_route {Route Job : Type} `{RouteLike Route Job}
  (r : Route) : Prop :=
  empty r = match route r with [] => true | _ :: _ => false end.

(** A route without jobs, by both [r.empty()] and [r.route]. *)
Definition is_empty_route {Route Job : Type} `{RouteLike Route Job}
  (r : Route) : Prop :=
  empty r = true /\ route r = [].

(** * Properties *)

(** ** Machine integers *)

Lemma wrap_signed_small (bits : N) (x : Z) :
  (0 < bits)%N ->
  - 2 ^ (Z.of_N bits - 1) <= x < 2 ^ (Z.of_N bits - 1) ->
  wrap_signed bits x = x.
Proof.
  intros Hb Hx. unfold wrap_signed.
  assert (Hp : 2 ^ Z.of_N bits = 2 * 2 ^ (Z.of_N bits - 1)).
  { rewrite <- Z.pow_succ_r by lia. f_equal. lia. }
  rewrite Z.mod_small; lia.
Qed.

Lemma wrap_signed_idem_add (bits : N) (x y : Z) :
  wrap_signed bits (wrap_signed bits x + y) = wrap_signed bits (x + y).
Proof.
  unfold wrap_signed.
  set (h := 2 ^ (Z.of_N bits - 1)). set (m := 2 ^ Z.of_N bits).
  replace ((x + h) mod m - h + y + h) with ((x + h) mod m + y) by lia.
  rewrite Zplus_mod_idemp_l. do 2 f_equal. lia.
Qed.

Lemma wrap_signed_idem_add_r (bits : N) (x y : Z) :
  wrap_signed bits (x + wrap_signed bits y) = wrap_signed bits (x + y).
Proof.
  rewrite (Z.add_comm x), wrap_signed_idem_add. f_equal. lia.
Qed.

Lemma wrap_signed_idem (bits : N) (x : Z) :
  wrap_signed bits (wrap_signed bits x) = wrap_signed bits x.
Proof.
  rewrite <- (Z.add_0_r (wrap_signed bits x)) at 1.
  rewrite wrap_signed_idem_add. f_equal. lia.
Qed.

Lemma wrap_signed_idem_mul (bits : N) (x y : Z) :
  wrap_signed bits (wrap_signed bits x * y) = wrap_signed bits (x * y).
Proof.
  unfold wrap_signed.
  set (h := 2 ^ (Z.of_N bits - 1)). set (m := 2 ^ Z.of_N bits).
  f_equal.
  assert (Hm : m <> 0) by (subst m; apply Z.pow_nonzero; lia).
  pose proof (Z.div_mod (x + h) m Hm) as Hdiv.
  replace (((x + h) mod m - h) * y + h)
    with (x * y + h + (- ((x + h) / m) * y) * m) by lia.
  apply Z_mod_plus_full.
Qed.

Lemma wrap_unsigned_idem_add (bits : N) (x y : Z) :
  wrap_unsigned bits (wrap_unsigned bits x + y) = wrap_unsigned bits (x + y).
Proof. unfold wrap_unsigned. apply Zplus_mod_idemp_l. Qed.

Lemma wrap_unsigned_range (bits : N) (x : Z) :
  0 <= wrap_unsigned bits x < 2 ^ Z.of_N bits.
Proof. unfold wrap_unsigned. apply Z.mod_pos_bound. lia. Qed.

Lemma wrap_unsigned_small (bits : N) (x : Z) :
  0 <= x < 2 ^ Z.of_N bits -> wrap_unsigned bits x = x.
Proof. intros Hx. unfold wrap_unsigned. now apply Z.mod_small. Qed.

Lemma to_int64_small (x : Z) :
  - 2 ^ 63 <= x < 2 ^ 63 -> to_int64 x = x.
Proof. intros Hx. apply wrap_signed_small; [lia | exact Hx]. Qed.

Lemma PRIORITY_SCALE_value : PRIORITY_SCALE = SCALE.
Proof. reflexivity. Qed.

(** The three conversions of the source's profit expression amount to one
    reduction of the exact value. *)
Lemma profit_spec_profit (s : SolutionIndicators) : profit s = spec_profit s.
Proof.
  unfold profit, spec_profit, to_int64. rewrite PRIORITY_SCALE_value.
  rewrite wrap_signed_idem_mul.
  replace (wrap_signed 64 (Z.of_N (priority_sum s) * SCALE) - cost (eval s))
    with (wrap_signed 64 (Z.of_N (priority_sum s) * SCALE) + - cost (eval s))
    by lia.
  rewrite wrap_signed_idem_add. f_equal; lia.
Qed.

(** When the exact profit fits the signed 64-bit range, it is the profit. *)
Lemma profit_exact (s : SolutionIndicators) :
  - 2 ^ 63 <= Z.of_N (priority_sum s) * SCALE - cost (eval s) < 2 ^ 63 ->
  profit s = Z.of_N (priority_sum s) * SCALE - cost (eval s).
Proof.
  intros Hfit. rewrite profit_spec_profit. now apply to_int64_small.
Qed.

(** ** Tuple comparison *)

(** Case analysis on every integer comparison in sight. *)
Ltac split_comparisons :=
  repeat match goal with
  | |- context [(?x <? ?y)%Z] => destruct (Z.ltb_spec x y)
  | |- context [(?x >? ?y)%Z] => rewrite (Z.gtb_ltb x y)
  | |- context [(?x =? ?y)%Z] => destruct (Z.eqb_spec x y)
  | |- context [(?x <? ?y)%N] => destruct (N.ltb_spec x y)
  | |- context [(?x =? ?y)%N] => destruct (N.eqb_spec x y)
  end.

Ltac solve_comparisons :=
  split_comparisons; simpl; try reflexivity; try discriminate; try lia.

(** On integers the standard's definition is the first-difference rule. *)
Lemma tuple_lt_cons (x y : Z) (l r : list Z) :
  tuple_lt (x :: l) (y :: r) = if x =? y then tuple_lt l r else x <? y.
Proof. simpl. solve_comparisons. Qed.

Lemma tuple_lt_irrefl (l : list Z) : tuple_lt l l = false.
Proof.
  induction l as [|x l IH]; [reflexivity|].
  rewrite tuple_lt_cons, Z.eqb_refl. exact IH.
Qed.

Lemma tuple_lt_asym (l r : list Z) :
  tuple_lt l r = true -> tuple_lt r l = false.
Proof.
  revert r. induction l as [|x l IH]; intros [|y r]; try reflexivity;
    try discriminate.
  rewrite !tuple_lt_cons.
  destruct (Z.eqb_spec x y) as [->|Hne].
  - rewrite Z.eqb_refl. apply IH.
  - destruct (Z.eqb_spec y x); [congruence|]. solve_comparisons.
Qed.

Lemma tuple_lt_trans (a b c : list Z) :
  tuple_lt a b = true -> tuple_lt b c = true -> tuple_lt a c = true.
Proof.
  revert b c. induction a as [|x a IH]; intros [|y b] [|z c];
    try discriminate.
  rewrite !tuple_lt_cons.
  destruct (Z.eqb_spec x y) as [->|Hxy].
  - destruct (Z.eqb_spec y z) as [->|Hyz]; [apply IH | auto].
  - destruct (Z.eqb_spec y z) as [->|Hyz].
    + destruct (Z.eqb_spec x z); [congruence | auto].
    + intros Hlt1 Hlt2. apply Z.ltb_lt in Hlt1, Hlt2.
      destruct (Z.eqb_spec x z); [lia | apply Z.ltb_lt; lia].
Qed.

(** ** The comparator through its keys *)

(** The same rule, in the shape of an early return on the first field that
    discriminates. *)
Lemma tuple_lt_first_difference (x y : Z) (l r : list Z) :
  tuple_lt (x :: l) (y :: r) = if negb (x =? y) then x <? y else tuple_lt l r.
Proof. rewrite tuple_lt_cons. now destruct (x =? y). Qed.

Lemma N_eqb_Z (x y : N) : (Z.of_N x =? Z.of_N y) = (x =? y)%N.
Proof. solve_comparisons. Qed.

Lemma N_ltb_Z (x y : N) : (Z.of_N x <? Z.of_N y) = (x <? y)%N.
Proof. solve_comparisons. Qed.

Lemma Z_opp_eqb (x y : Z) : (- x =? - y) = (x =? y).
Proof. solve_comparisons. Qed.

Lemma Z_opp_ltb (x y : Z) : (- x <? - y) = (y <? x).
Proof. solve_comparisons. Qed.

Lemma profit_branch_key (a b : SolutionIndicators) :
  profit_branch a b = tuple_lt (profit_key a) (profit_key b).
Proof.
  unfold profit_branch, profit_tie, profit_key. cbv zeta.
  rewrite !tuple_lt_first_difference, !Z_opp_eqb, !Z_opp_ltb, Z.gtb_ltb.
  rewrite (Z.eqb_sym (Z.of_N (assigned b))). reflexivity.
Qed.

Lemma default_branch_key (a b : SolutionIndicators) :
  default_branch a b = tuple_lt (default_key a) (default_key b).
Proof.
  unfold default_branch, default_tie, default_key.
  rewrite !tuple_lt_first_difference, !Z_opp_eqb, !Z_opp_ltb.
  rewrite (Z.eqb_sym (Z.of_N (assigned b))). reflexivity.
Qed.

Lemma operator_lt_key (a b : SolutionIndicators) :
  operator_lt a b =
  if using_priorities a b then tuple_lt (profit_key a) (profit_key b)
  else tuple_lt (default_key a) (default_key b).
Proof.
  unfold operator_lt. rewrite profit_branch_key, default_branch_key.
  reflexivity.
Qed.

Lemma using_priorities_sym (a b : SolutionIndicators) :
  using_priorities a b = using_priorities b a.
Proof. unfold using_priorities. apply orb_comm. Qed.

Lemma using_priorities_true (a b : SolutionIndicators) :
  using_priorities a b = true <->
  (0 < priority_sum a)%N \/ (0 < priority_sum b)%N.
Proof.
  unfold using_priorities. rewrite orb_true_iff, !N.ltb_lt. reflexivity.
Qed.

Lemma using_priorities_false (a b : SolutionIndicators) :
  using_priorities a b = false <->
  priority_sum a = 0%N /\ priority_sum b = 0%N.
Proof.
  unfold using_priorities. rewrite orb_false_iff, !N.ltb_ge. lia.
Qed.

Lemma N_last_difference (x y : N) :
  (if negb (x =? y)%N then (x <? y)%N else tuple_lt [] []) = (x <? y)%N.
Proof. solve_comparisons. Qed.

(** The two branches are the two cascades of the specification. *)
Lemma profit_branch_spec (a b : SolutionIndicators) :
  profit_branch a b = betterThan_profit_spec a b.
Proof.
  unfold profit_branch, betterThan_profit_spec, profit_tie. cbv zeta.
  rewrite !tuple_lt_first_difference, !N_eqb_Z, !N_ltb_Z.
  rewrite <- !profit_spec_profit, Z.gtb_ltb.
  rewrite (N.eqb_sym (assigned b) (assigned a)), N_last_difference.
  reflexivity.
Qed.

Lemma default_branch_spec (a b : SolutionIndicators) :
  default_branch a b = betterThan_lexicographic_spec a b.
Proof.
  unfold default_branch, betterThan_lexicographic_spec, default_tie.
  rewrite !tuple_lt_first_difference, !N_eqb_Z, !N_ltb_Z.
  rewrite (N.eqb_sym (assigned b) (assigned a)), N_last_difference.
  reflexivity.
Qed.

(** ** Order properties of the comparator *)

Lemma operator_lt_irrefl (a : SolutionIndicators) : operator_lt a a = false.
Proof.
  rewrite operator_lt_key.
  destruct (using_priorities a a); apply tuple_lt_irrefl.
Qed.

Lemma operator_lt_asym (a b : SolutionIndicators) :
  operator_lt a b = true -> operator_lt b a = false.
Proof.
  rewrite !operator_lt_key, (using_priorities_sym b a).
  destruct (using_priorities a b); apply tuple_lt_asym.
Qed.

(** C1. The comparator is asymmetric, hence irreflexive: [betterThan a b]
    and [betterThan b a] are never both true, and [betterThan a a] is false,
    whatever mode the comparison runs in. *)
Theorem betterThan_asymmetric (a b : SolutionIndicators) :
  betterThan a b && betterThan b a = false /\ betterThan a a = false.
Proof.
  unfold betterThan. split.
  - destruct (operator_lt a b) eqn:Hab; [|reflexivity].
    simpl. now apply operator_lt_asym.
  - apply operator_lt_irrefl.
Qed.

(** C2. The mode is chosen per comparison and symmetrically: the profit
    branch runs exactly when one of the two operands has a positive
    [priority_sum]; when both have [priority_sum = 0] the default branch
    alone decides, whatever the [eval] fields hold. *)
Theorem mode_selection (a b : SolutionIndicators) :
  using_priorities a b = using_priorities b a /\
  (using_priorities a b = true <->
   (0 < priority_sum a)%N \/ (0 < priority_sum b)%N) /\
  ((0 < priority_sum a)%N \/ (0 < priority_sum b)%N ->
   betterThan a b = profit_branch a b) /\
  (priority_sum a = 0%N -> priority_sum b = 0%N ->
   using_priorities a b = false /\ betterThan a b = default_branch a b).
Proof.
  split; [apply using_priorities_sym|].
  split; [apply using_priorities_true|].
  unfold betterThan, operator_lt. split.
  - intros Hp. apply using_priorities_true in Hp. now rewrite Hp.
  - intros Ha Hb.
    assert (Hu : using_priorities a b = false)
      by now apply using_priorities_false.
    now rewrite Hu.
Qed.

(** C6. Within one priority regime the comparator is transitive: if [a],
    [b] and [c] all have a positive [priority_sum], or all have
    [priority_sum = 0], then [betterThan a b] and [betterThan b c] give
    [betterThan a c]. *)
Theorem betterThan_transitive_same_regime (a b c : SolutionIndicators) :
  same_regime a b c ->
  betterThan a b = true -> betterThan b c = true -> betterThan a c = true.
Proof.
  unfold betterThan. rewrite !operator_lt_key.
  intros [(Ha & Hb & Hc) | (Ha & Hb & Hc)].
  - rewrite !(proj2 (using_priorities_true _ _)) by auto.
    apply tuple_lt_trans.
  - rewrite !(proj2 (using_priorities_false _ _)) by auto.
    apply tuple_lt_trans.
Qed.

(** ** The two cascades *)

(** C3. In priority mode, with [SCALE = 360000], the comparison is decided
    by [profit = priority_sum * SCALE - eval.cost] in signed 64-bit
    arithmetic: the higher profit wins, and equal profits are separated by
    more assigned jobs, then fewer used vehicles, then lower duration, then
    lower distance, then lower [routes_hash].  In particular A with
    priority 5 and cost 100000 (profit 1,700,000) is better than B with
    priority 4 and cost 50000 (profit 1,390,000). *)
Theorem profit_mode_cascade :
  (forall a b : SolutionIndicators,
     using_priorities a b = true ->
     betterThan a b = betterThan_profit_spec a b) /\
  (forall A B : SolutionIndicators,
     priority_sum A = 5%N -> cost (eval A) = 100000 ->
     priority_sum B = 4%N -> cost (eval B) = 50000 ->
     spec_profit A = 1700000 /\ spec_profit B = 1390000 /\
     betterThan A B = true).
Proof.
  assert (Hcascade : forall a b : SolutionIndicators,
             using_priorities a b = true ->
             betterThan a b = betterThan_profit_spec a b).
  { intros a b Hu. unfold betterThan, operator_lt. rewrite Hu.
    apply profit_branch_spec. }
  split; [exact Hcascade|].
  intros A B HpA HcA HpB HcB.
  assert (HA : spec_profit A = 1700000)
    by (unfold spec_profit; rewrite HpA, HcA; reflexivity).
  assert (HB : spec_profit B = 1390000)
    by (unfold spec_profit; rewrite HpB, HcB; reflexivity).
  repeat split; try assumption.
  rewrite Hcascade.
  - unfold betterThan_profit_spec. rewrite HA, HB. reflexivity.
  - apply using_priorities_true. left. rewrite HpA. reflexivity.
Qed.

(** C4. In lexicographic mode (both operands have [priority_sum = 0]) the
    comparison stops at the first field that discriminates, in the order:
    more assigned jobs, lower cost, fewer used vehicles, lower duration,
    lower distance, lower [routes_hash].  In particular A (assigned 10,
    cost 500, 2 vehicles) is better than B (assigned 9, cost 100); and
    with equal assigned counts and otherwise equal fields, cost 480 is
    better than cost 500. *)
Theorem lexicographic_mode_cascade :
  (forall a b : SolutionIndicators,
     priority_sum a = 0%N -> priority_sum b = 0%N ->
     betterThan a b = betterThan_lexicographic_spec a b) /\
  (forall A B : SolutionIndicators,
     priority_sum A = 0%N -> priority_sum B = 0%N ->
     assigned A = 10%N -> cost (eval A) = 500 -> used_vehicles A = 2%N ->
     assigned B = 9%N -> cost (eval B) = 100 ->
     betterThan A B = true) /\
  (forall A B : SolutionIndicators,
     priority_sum A = 0%N -> priority_sum B = 0%N ->
     assigned A = 10%N -> cost (eval A) = 500 ->
     assigned B = 10%N -> cost (eval B) = 480 ->
     used_vehicles A = used_vehicles B ->
     duration (eval A) = duration (eval B) ->
     distance (eval A) = distance (eval B) ->
     routes_hash A = routes_hash B ->
     betterThan B A = true).
Proof.
  assert (Hcascade : forall a b : SolutionIndicators,
             priority_sum a = 0%N -> priority_sum b = 0%N ->
             betterThan a b = betterThan_lexicographic_spec a b).
  { intros a b Ha Hb. unfold betterThan, operator_lt.
    rewrite (proj2 (using_priorities_false a b)) by auto.
    apply default_branch_spec. }
  split; [exact Hcascade|]. split.
  - intros A B HpA HpB HaA HcA HvA HaB HcB.
    rewrite Hcascade by assumption.
    unfold betterThan_lexicographic_spec. rewrite HaA, HaB. reflexivity.
  - intros A B HpA HpB HaA HcA HaB HcB Hv Hdu Hdi Hh.
    rewrite Hcascade by assumption.
    unfold betterThan_lexicographic_spec. rewrite HaA, HaB, HcA, HcB.
    reflexivity.
Qed.

(** C5. Final tie handling: two indicators equal in every field are
    equivalent ([betterThan] is false in both directions), and when A and B
    differ only in [routes_hash], with the hash of A the lower one, A is
    better than B; both hold whichever mode the comparison runs in. *)
Theorem final_tie_handling :
  (forall a b : SolutionIndicators,
     a = b -> betterThan a b = false /\ betterThan b a = false) /\
  (forall A B : SolutionIndicators,
     same_but_hash A B -> (routes_hash A < routes_hash B)%N ->
     betterThan A B = true /\ betterThan B A = false).
Proof.
  split.
  - intros a b ->. split; apply operator_lt_irrefl.
  - intros A B (Hp & Ha & He & Hv) Hh.
    assert (HAB : betterThan A B = true).
    { unfold betterThan, operator_lt.
      rewrite profit_branch_spec, default_branch_spec.
      unfold betterThan_profit_spec, betterThan_lexicographic_spec, spec_profit.
      rewrite Hp, Ha, He, Hv, !Z.eqb_refl, !N.eqb_refl. simpl.
      apply N.ltb_lt in Hh. rewrite Hh. now destruct (using_priorities A B). }
    split; [exact HAB|]. now apply operator_lt_asym.
Qed.

(** C9. In priority mode the cost is not looked at again once the profits
    are compared, so the equivalence the comparator induces is coarser than
    equality of fields: indicators that differ by one priority point and
    360000 cost units have equal profits and, all other fields being equal,
    neither is better than the other. *)
Theorem profit_tie_ignores_cost :
  (forall a b : SolutionIndicators,
     using_priorities a b = true -> spec_profit a = spec_profit b ->
     assigned a = assigned b -> used_vehicles a = used_vehicles b ->
     duration (eval a) = duration (eval b) ->
     distance (eval a) = distance (eval b) ->
     routes_hash a = routes_hash b ->
     betterThan a b = false /\ betterThan b a = false) /\
  (exists a b : SolutionIndicators,
     priority_sum a <> priority_sum b /\
     cost (eval a) <> cost (eval b) /\
     Z.of_N (priority_sum b) = Z.of_N (priority_sum a) + 1 /\
     cost (eval b) = cost (eval a) + 360000 /\
     assigned a = assigned b /\ used_vehicles a = used_vehicles b /\
     duration (eval a) = duration (eval b) /\
     distance (eval a) = distance (eval b) /\
     routes_hash a = routes_hash b /\
     betterThan a b = false /\ betterThan b a = false).
Proof.
  split.
  - intros a b Hu Hp Ha Hv Hdu Hdi Hh.
    assert (Hu' : using_priorities b a = true)
      by now rewrite using_priorities_sym.
    unfold betterThan, operator_lt. rewrite Hu, Hu', !profit_branch_spec.
    unfold betterThan_profit_spec.
    rewrite Hp, Ha, Hv, Hdu, Hdi, Hh, !Z.eqb_refl, !N.eqb_refl. simpl.
    now rewrite N.ltb_irrefl.
  - exists (mkSolutionIndicators 1 7 (mkEval 1000 50 60) 2 99),
           (mkSolutionIndicators 2 7 (mkEval 361000 50 60) 2 99).
    simpl. repeat split; try reflexivity; try discriminate.
Qed.

(** C10. The defaulted constructor sets [priority_sum], [assigned] and
    [used_vehicles] to zero and leaves [routes_hash] as it finds it, so the
    comparison of two default-constructed values ties on every initialized
    field and is decided by the two uninitialized hashes alone: either
    answer can come out. *)
Theorem default_constructed_comparison :
  (forall h : N,
     priority_sum (SolutionIndicators_default h) = 0%N /\
     assigned (SolutionIndicators_default h) = 0%N /\
     used_vehicles (SolutionIndicators_default h) = 0%N /\
     routes_hash (SolutionIndicators_default h) = h) /\
  (forall h1 h2 : N,
     betterThan (SolutionIndicators_default h1) (SolutionIndicators_default h2)
     = (h1 <? h2)%N) /\
  (exists h1 h2 h1' h2' : N,
     betterThan (SolutionIndicators_default h1) (SolutionIndicators_default h2)
     = true /\
     betterThan (SolutionIndicators_default h1') (SolutionIndicators_default h2')
     = false).
Proof.
  assert (Hcmp : forall h1 h2 : N,
             betterThan (SolutionIndicators_default h1)
                        (SolutionIndicators_default h2) = (h1 <? h2)%N).
  { intros h1 h2. unfold betterThan, operator_lt. simpl.
    rewrite default_branch_spec. unfold betterThan_lexicographic_spec.
    reflexivity. }
  split; [intros h; repeat split|]. split; [exact Hcmp|].
  exists 0%N, 1%N, 1%N, 0%N. rewrite !Hcmp. split; reflexivity.
Qed.

(** ** The aggregating constructor *)

Lemma Zsum_app (l1 l2 : list Z) : Zsum (l1 ++ l2) = Zsum l1 + Zsum l2.
Proof.
  unfold Zsum. induction l1 as [|x l1 IH]; simpl; [reflexivity | lia].
Qed.

Lemma Zsum_snoc (l : list Z) (x : Z) : Zsum (l ++ [x]) = Zsum l + x.
Proof. rewrite Zsum_app. unfold Zsum. simpl. lia. Qed.

Lemma Zsum_map_snoc {A : Type} (f : A -> Z) (l : list A) (x : A) :
  Zsum (map f (l ++ [x])) = Zsum (map f l) + f x.
Proof. rewrite map_app. apply Zsum_snoc. Qed.

Lemma Eval_total_snoc (l : list Eval) (e : Eval) :
  Eval_total (l ++ [e]) =
  mkEval (cost (Eval_total l) + cost e)
         (duration (Eval_total l) + duration e)
         (distance (Eval_total l) + distance e).
Proof. unfold Eval_total. now rewrite !Zsum_map_snoc. Qed.

Lemma Eval_add_to_int64 (acc e : Eval) :
  Eval_add (Eval_to_int64 acc) e =
  Eval_to_int64 (mkEval (cost acc + cost e) (duration acc + duration e)
                        (distance acc + distance e)).
Proof.
  unfold Eval_add, Eval_to_int64, to_int64. simpl.
  now rewrite !wrap_signed_idem_add.
Qed.

Lemma Eval_to_int64_in_range (e : Eval) :
  Eval_in_range e -> Eval_to_int64 e = e.
Proof.
  destruct e as [c du di]. intros (Hc & Hdu & Hdi). simpl in *.
  unfold Eval_to_int64. simpl. now rewrite !to_int64_small.
Qed.

Lemma to_unsigned_succ (bits : N) (x y : Z) :
  Z.to_N (wrap_unsigned bits (Z.of_N (Z.to_N (wrap_unsigned bits x)) + y))
  = Z.to_N (wrap_unsigned bits (x + y)).
Proof.
  rewrite Z2N.id by apply wrap_unsigned_range.
  now rewrite wrap_unsigned_idem_add.
Qed.

Lemma to_unsigned_small (bits : N) (x : Z) :
  0 <= x < 2 ^ Z.of_N bits -> Z.of_N (Z.to_N (wrap_unsigned bits x)) = x.
Proof. intros Hx. rewrite wrap_unsigned_small by exact Hx. lia. Qed.

Lemma ranges_sort_sorted (v : list N) : Sorted N.le (ranges_sort v).
Proof. apply Sorted_merge_sort. apply _. Qed.

Lemma ranges_sort_perm (v : list N) : ranges_sort v ≡ₚ v.
Proof. apply merge_sort_Permutation. Qed.

(** Sorting forgets the order its input came in. *)
Lemma ranges_sort_permutation_invariant (v w : list N) :
  v ≡ₚ w -> ranges_sort v = ranges_sort w.
Proof.
  intros Hvw. apply (Sorted_unique N.le); try apply ranges_sort_sorted.
  now rewrite !ranges_sort_perm.
Qed.

Section AggregatorProperties.

Context {Input Route Job : Type} `{RouteLike Route Job}.
Variable Priority_bits : N.
Variable Index_bits : N.
Variable priority_sum_for_route : Input -> list Job -> N.
Variable route_eval_for_vehicle : Input -> N -> list Job -> Eval.
Variable get_vector_hash : list N -> N.

#[local] Abbreviation step :=
  (ctor_step Priority_bits Index_bits priority_sum_for_route
             route_eval_for_vehicle).
#[local] Abbreviation loop :=
  (ctor_loop Priority_bits Index_bits priority_sum_for_route
             route_eval_for_vehicle).
#[local] Abbreviation ctor :=
  (SolutionIndicators_ctor Priority_bits Index_bits priority_sum_for_route
                           route_eval_for_vehicle get_vector_hash).
#[local] Abbreviation ctor_from :=
  (SolutionIndicators_ctor_from Priority_bits Index_bits priority_sum_for_route
                                route_eval_for_vehicle get_vector_hash).
#[local] Abbreviation evals := (route_evals Index_bits route_eval_for_vehicle).
#[local] Abbreviation ptotal := (priority_total priority_sum_for_route).
#[local] Abbreviation loop_state :=
  (loop_state Priority_bits Index_bits priority_sum_for_route
              route_eval_for_vehicle).
#[local] Abbreviation fit :=
  (sums_fit Priority_bits Index_bits priority_sum_for_route
            route_eval_for_vehicle).

Lemma loop_state_nil (h : N) (input : Input) :
  loop_state h input [] = (SolutionIndicators_default h, 0%N).
Proof.
  unfold loop_state, SolutionIndicators_default, to_Priority, rank_of,
    to_Index, wrap_unsigned.
  simpl. rewrite ?Zmod_0_l. reflexivity.
Qed.

Lemma count_non_empty_snoc (done : list Route) (r : Route) :
  Z.of_nat (count_non_empty (done ++ [r])) =
  Z.of_nat (count_non_empty done) + (if negb (empty r) then 1 else 0).
Proof.
  unfold count_non_empty. rewrite filter_app, length_app.
  rewrite filter_cons, filter_nil.
  destruct (decide (negb (empty r) = true)) as [He|He].
  - rewrite He. simpl. lia.
  - apply not_true_is_false in He. rewrite He. simpl. lia.
Qed.

Lemma route_evals_snoc (input : Input) (done : list Route) (r : Route) :
  evals input (done ++ [r]) =
  evals input done
  ++ [route_eval_for_vehicle input (rank_of Index_bits (length done)) (route r)].
Proof.
  unfold route_evals. rewrite imap_app. simpl. now rewrite Nat.add_0_r.
Qed.

Lemma loop_state_step (h : N) (input : Input) (done : list Route) (r : Route) :
  step input (loop_state h input done) r = loop_state h input (done ++ [r]).
Proof.
  unfold loop_state, ctor_step.
  cbn [priority_sum assigned eval used_vehicles routes_hash].
  f_equal; [f_equal|].
  - unfold to_Priority, priority_total.
    rewrite to_unsigned_succ, Zsum_map_snoc. reflexivity.
  - unfold to_uint32, assigned_total.
    rewrite to_unsigned_succ, Zsum_map_snoc. reflexivity.
  - rewrite Eval_add_to_int64, route_evals_snoc, Eval_total_snoc.
    reflexivity.
  - rewrite count_non_empty_snoc. unfold to_uint32.
    destruct (negb (empty r)).
    + now rewrite to_unsigned_succ.
    + now rewrite Z.add_0_r.
  - unfold rank_of, to_Index. rewrite to_unsigned_succ, length_app. simpl.
    do 2 f_equal. lia.
Qed.

Lemma loop_state_fold (h : N) (input : Input) (todo done : list Route) :
  fold_left (step input) todo (loop_state h input done)
  = loop_state h input (done ++ todo).
Proof.
  revert done. induction todo as [|r todo IH]; intros done; cbn [fold_left].
  - now rewrite app_nil_r.
  - rewrite loop_state_step, IH, <- app_assoc. reflexivity.
Qed.

(** The loop in closed form. *)
Lemma ctor_loop_closed (h : N) (input : Input) (sol : list Route) :
  loop h input sol = loop_state h input sol.
Proof.
  unfold ctor_loop. rewrite <- (loop_state_nil h input).
  apply loop_state_fold.
Qed.

(** Only [routes_hash] is left uninitialized by the delegated constructor,
    and it is assigned at the end: what it held does not matter. *)
Lemma ctor_from_indep (h1 h2 : N) (input : Input) (sol : list Route) :
  ctor_from h1 input sol = ctor_from h2 input sol.
Proof.
  unfold SolutionIndicators_ctor_from. rewrite !ctor_loop_closed. reflexivity.
Qed.

Lemma Zsum_map_nonneg {A : Type} (f : A -> Z) (l : list A) :
  (forall x, 0 <= f x) -> 0 <= Zsum (map f l).
Proof.
  intros Hf. unfold Zsum. induction l as [|x l IH]; simpl; [lia|].
  specialize (Hf x). lia.
Qed.

Lemma priority_total_nonneg (input : Input) (sol : list Route) :
  0 <= ptotal input sol.
Proof. apply Zsum_map_nonneg. intros r. lia. Qed.

Lemma assigned_total_nonneg (sol : list Route) : 0 <= assigned_total sol.
Proof. apply Zsum_map_nonneg. intros r. lia. Qed.

(** While the ranks fit [Index], [v_rank] is the position of the route. *)
Lemma route_evals_exact (input : Input) (sol : list Route) :
  Z.of_nat (length sol) <= 2 ^ Z.of_N Index_bits ->
  evals input sol =
  imap (fun i r => route_eval_for_vehicle input (N.of_nat i) (route r)) sol.
Proof.
  intros Hlen. unfold route_evals. apply imap_ext. intros i r Hi.
  apply lookup_lt_Some in Hi. f_equal.
  unfold rank_of, to_Index. rewrite wrap_unsigned_small by lia. lia.
Qed.

Lemma collected_sizes_exact (sol : list Route) :
  Forall (fun r => Z.of_N (size r) < 2 ^ 32) sol ->
  map (fun r => to_uint32 (Z.of_N (size r))) sol = collected_sizes sol.
Proof.
  unfold collected_sizes. induction 1 as [|r sol Hr _ IH]; simpl; [reflexivity|].
  rewrite IH. f_equal. unfold to_uint32.
  rewrite wrap_unsigned_small; [apply N2Z.id | split; [lia | exact Hr]].
Qed.

(** C7. What the aggregating constructor returns, for every instance and
    every ordered collection of routes: [priority_sum] is the sum of the
    per-route priority sums, [assigned] the sum of the job counts, [eval]
    the combination of the per-route evaluations, each computed with the
    rank of its route, [used_vehicles] the number of non-empty routes, and
    [routes_hash] the hash of the sorted route sizes, zeros included.  The
    first part states this in the arithmetic of the fields' types (sums
    reduced to [Priority], [unsigned], the 64-bit components of [Eval],
    ranks to [Index], sizes to [uint32_t]); the second part states it with
    exact sums for collections that stay within those types. *)
Theorem ctor_postconditions (input : Input) (sol : list Route) :
  let s :=
    SolutionIndicators_ctor Priority_bits Index_bits priority_sum_for_route
      route_eval_for_vehicle get_vector_hash input sol in
  (priority_sum s = to_Priority Priority_bits (ptotal input sol) /\
   assigned s = to_uint32 (assigned_total sol) /\
   eval s = Eval_to_int64 (Eval_total (evals input sol)) /\
   used_vehicles s = to_uint32 (Z.of_nat (count_non_empty sol)) /\
   exists v : list N,
     Sorted N.le v /\
     v ≡ₚ map (fun n => to_uint32 (Z.of_N n)) (collected_sizes sol) /\
     routes_hash s = get_vector_hash v) /\
  (fit input sol ->
   Z.of_N (priority_sum s) = ptotal input sol /\
   Z.of_N (assigned s) = assigned_total sol /\
   eval s =
   Eval_total
     (imap (fun i r => route_eval_for_vehicle input (N.of_nat i) (route r))
           sol) /\
   Z.of_N (used_vehicles s) = Z.of_nat (count_non_empty sol) /\
   exists v : list N,
     Sorted N.le v /\ v ≡ₚ collected_sizes sol /\
     routes_hash s = get_vector_hash v).
Proof.
  cbv zeta. unfold SolutionIndicators_ctor, SolutionIndicators_ctor_from.
  rewrite ctor_loop_closed. unfold loop_state.
  cbn [fst priority_sum assigned eval used_vehicles routes_hash].
  split.
  - repeat split.
    exists (routes_sizes sol). unfold routes_sizes, collected_sizes.
    rewrite map_map.
    split; [apply ranges_sort_sorted|]. split; [apply ranges_sort_perm|].
    reflexivity.
  - intros (Hp & Ha & He & Hlen & Hv & Hs).
    pose proof (priority_total_nonneg input sol) as Hp0.
    pose proof (assigned_total_nonneg sol) as Ha0.
    split; [apply to_unsigned_small; lia|].
    split; [apply (to_unsigned_small 32); lia|].
    split; [rewrite Eval_to_int64_in_range by exact He;
            now rewrite route_evals_exact|].
    split; [apply (to_unsigned_small 32); lia|].
    exists (routes_sizes sol). unfold routes_sizes.
    rewrite collected_sizes_exact by exact Hs.
    split; [apply ranges_sort_sorted|]. split; [apply ranges_sort_perm|].
    reflexivity.
Qed.

(** C8. Permuting the vehicle-slot order of the routes before aggregation
    leaves [routes_hash] unchanged, for every instance and every
    collection of routes: the sizes are sorted before they are hashed. *)
Theorem routes_hash_permutation_invariant (input : Input)
  (sol sol' : list Route) :
  sol ≡ₚ sol' ->
  routes_hash
    (SolutionIndicators_ctor Priority_bits Index_bits priority_sum_for_route
      route_eval_for_vehicle get_vector_hash input sol)
  = routes_hash
      (SolutionIndicators_ctor Priority_bits Index_bits priority_sum_for_route
        route_eval_for_vehicle get_vector_hash input sol').
Proof.
  intros Hperm.
  unfold SolutionIndicators_ctor, SolutionIndicators_ctor_from.
  cbn [routes_hash]. f_equal. unfold routes_sizes.
  apply ranges_sort_permutation_invariant.
  now apply Permutation_map.
Qed.

End AggregatorProperties.

(** ** Across regimes

    The mode is chosen per comparison, so a population that mixes
    indicators with and without priority can be ordered in a cycle: [a]
    beats [b] on the assigned count (default branch), [b] beats [c] and [c]
    beats [a] on profit (profit branch). *)
Lemma betterThan_cross_regime_cycle :
  exists a b c : SolutionIndicators,
    priority_sum a = 0%N /\ priority_sum b = 0%N /\ (0 < priority_sum c)%N /\
    betterThan a b = true /\ betterThan b c = true /\ betterThan c a = true.
Proof.
  exists (mkSolutionIndicators 0 10 (mkEval 500 0 0) 1 0),
         (mkSolutionIndicators 0 9 (mkEval 100 0 0) 1 0),
         (mkSolutionIndicators 1 9 (mkEval 360300 0 0) 1 0).
  repeat split.
Qed.

(** A [priority_sum] of at most 32 bits and a cost that is not negative keep
    the profit expression inside the signed 64-bit range. *)
Lemma profit_no_overflow (s : SolutionIndicators) :
  (priority_sum s < 2 ^ 32)%N -> 0 <= cost (eval s) < 2 ^ 63 ->
  profit s = Z.of_N (priority_sum s) * SCALE - cost (eval s).
Proof.
  intros Hp Hc. apply profit_exact. unfold SCALE.
  assert (Hp' : Z.of_N (priority_sum s) < 2 ^ 32) by lia.
  lia.
Qed.

(** ** Concrete instances *)

Lemma profit_no_overflow_witness :
  profit (mkSolutionIndicators 5 12 (mkEval 100000 40 60) 3 17) = 1700000.
Proof.
  apply (profit_no_overflow (mkSolutionIndicators 5 12 (mkEval 100000 40 60) 3 17));
    simpl; lia.
Defined.

Lemma mode_selection_witness :
  let a := mkSolutionIndicators 0 10 (mkEval 500 30 40) 2 7 in
  let b := mkSolutionIndicators 0 9 (mkEval 100 30 40) 1 3 in
  using_priorities a b = false /\ betterThan a b = default_branch a b.
Proof.
  intros a b.
  apply (proj2 (proj2 (proj2 (mode_selection a b)))); reflexivity.
Defined.

Lemma profit_mode_cascade_witness :
  let A := mkSolutionIndicators 5 12 (mkEval 100000 40 60) 3 17 in
  let B := mkSolutionIndicators 4 12 (mkEval 50000 40 60) 3 17 in
  spec_profit A = 1700000 /\ spec_profit B = 1390000 /\ betterThan A B = true.
Proof.
  intros A B. apply (proj2 profit_mode_cascade A B); reflexivity.
Defined.

Lemma lexicographic_mode_cascade_witness :
  let A := mkSolutionIndicators 0 10 (mkEval 500 30 40) 2 7 in
  let B := mkSolutionIndicators 0 9 (mkEval 100 30 40) 1 3 in
  let B' := mkSolutionIndicators 0 10 (mkEval 480 30 40) 2 7 in
  betterThan A B = betterThan_lexicographic_spec A B /\
  betterThan A B = true /\ betterThan B' A = true.
Proof.
  intros A B B'. split; [|split].
  - apply (proj1 lexicographic_mode_cascade A B); reflexivity.
  - apply (proj1 (proj2 lexicographic_mode_cascade) A B); reflexivity.
  - apply (proj2 (proj2 lexicographic_mode_cascade) A B'); reflexivity.
Defined.

Lemma final_tie_handling_witness :
  let A := mkSolutionIndicators 3 8 (mkEval 900 30 40) 2 11 in
  let B := mkSolutionIndicators 3 8 (mkEval 900 30 40) 2 12 in
  let A0 := mkSolutionIndicators 0 8 (mkEval 900 30 40) 2 11 in
  let B0 := mkSolutionIndicators 0 8 (mkEval 900 30 40) 2 12 in
  (using_priorities A B = true /\
   betterThan A B = true /\ betterThan B A = false) /\
  (using_priorities A0 B0 = false /\
   betterThan A0 B0 = true /\ betterThan B0 A0 = false) /\
  (betterThan A A = false /\ betterThan A A = false).
Proof.
  intros A B A0 B0. split; [|split].
  - split; [reflexivity|].
    apply (proj2 final_tie_handling A B); [repeat split | reflexivity].
  - split; [reflexivity|].
    apply (proj2 final_tie_handling A0 B0); [repeat split | reflexivity].
  - apply (proj1 final_tie_handling A A). reflexivity.
Defined.

Lemma betterThan_transitive_same_regime_witness :
  let a := mkSolutionIndicators 5 12 (mkEval 100000 40 60) 3 17 in
  let b := mkSolutionIndicators 4 12 (mkEval 50000 40 60) 3 17 in
  let c := mkSolutionIndicators 4 11 (mkEval 50000 40 60) 3 17 in
  betterThan a c = true.
Proof.
  intros a b c.
  apply (betterThan_transitive_same_regime a b c);
    [left; repeat split | reflexivity | reflexivity].
Defined.

Lemma sample_sums_fit :
  sums_fit 32 16 sample_priority_sum_for_route sample_route_eval_for_vehicle
           sample_input [[0; 2]; []; [4; 3; 1]]%nat.
Proof.
  unfold sums_fit, Eval_in_range.
  split; [vm_compute; reflexivity|].
  split; [vm_compute; reflexivity|].
  split; [vm_compute; intuition discriminate|].
  split; [vm_compute; discriminate|].
  split; [vm_compute; reflexivity|].
  repeat (constructor; [vm_compute; reflexivity|]). constructor.
Defined.

Lemma ctor_postconditions_witness :
  let sol := [[0; 2]; []; [4; 3; 1]]%nat in
  let s := sample_ctor sample_input sol in
  Z.of_N (priority_sum s) = 11 /\
  Z.of_N (assigned s) = 5 /\
  eval s = mkEval 450 35 15 /\
  Z.of_N (used_vehicles s) = 2 /\
  exists v : list N,
    Sorted N.le v /\ v ≡ₚ [2; 0; 3]%N /\ routes_hash s = sample_vector_hash v.
Proof.
  exact (proj2 (ctor_postconditions 32 16 sample_priority_sum_for_route
                  sample_route_eval_for_vehicle sample_vector_hash
                  sample_input [[0; 2]; []; [4; 3; 1]]%nat)
               sample_sums_fit).
Defined.

Lemma routes_hash_permutation_invariant_witness :
  routes_hash (sample_ctor sample_input [[0; 2]; []; [4; 3; 1]]%nat)
  = routes_hash (sample_ctor sample_input [[]; [4; 3; 1]; [0; 2]]%nat).
Proof.
  apply (routes_hash_permutation_invariant 32 16 sample_priority_sum_for_route
           sample_route_eval_for_vehicle sample_vector_hash sample_input).
  apply (Permutation_cons_append [[]; [4; 3; 1]]%nat [0; 2]%nat).
Defined.

(** ** The equivalence induced by the comparator *)

Lemma tuple_lt_incomparable (l r : list Z) :
  length l = length r ->
  tuple_lt l r = false -> tuple_lt r l = false -> l = r.
Proof.
  revert r. induction l as [|x l IH]; intros [|y r] Hlen; try discriminate;
    [reflexivity|].
  rewrite !tuple_lt_cons. injection Hlen as Hlen.
  destruct (Z.eqb_spec x y) as [->|Hxy].
  - rewrite Z.eqb_refl. intros Hlr Hrl. f_equal. now apply IH.
  - destruct (Z.eqb_spec y x) as [Heq|_]; [congruence|].
    intros Hlt1 Hlt2. apply Z.ltb_ge in Hlt1, Hlt2. lia.
Qed.

Lemma incomparable_keys (a b : SolutionIndicators) :
  incomparable a b <->
  if using_priorities a b then profit_key a = profit_key b
  else default_key a = default_key b.
Proof.
  unfold incomparable, betterThan. rewrite !operator_lt_key.
  rewrite (using_priorities_sym b a).
  destruct (using_priorities a b); split.
  - intros [Hab Hba]. now apply tuple_lt_incomparable.
  - intros ->. split; apply tuple_lt_irrefl.
  - intros [Hab Hba]. now apply tuple_lt_incomparable.
  - intros ->. split; apply tuple_lt_irrefl.
Qed.

Lemma default_key_inj (a b : SolutionIndicators) :
  priority_sum a = priority_sum b -> default_key a = default_key b -> a = b.
Proof.
  destruct a as [pa aa [ca dua dia] va ha], b as [pb ab [cb dub dib] vb hb].
  unfold default_key. simpl. intros -> Hkey.
  injection Hkey as Ha Hc Hv Hdu Hdi Hh.
  f_equal; try lia. now f_equal.
Qed.

(** In lexicographic mode the comparator is total: of two different
    indicators without priority, one is better than the other. *)
Theorem lexicographic_mode_total (a b : SolutionIndicators) :
  priority_sum a = 0%N -> priority_sum b = 0%N -> a <> b ->
  betterThan a b || betterThan b a = true.
Proof.
  intros Ha Hb Hne.
  destruct (betterThan a b) eqn:Hab; [reflexivity|].
  destruct (betterThan b a) eqn:Hba; [reflexivity|].
  exfalso. apply Hne.
  assert (Hinc : incomparable a b) by (split; assumption).
  apply incomparable_keys in Hinc.
  rewrite (proj2 (using_priorities_false a b)) in Hinc by auto.
  apply default_key_inj; congruence.
Qed.

(** In priority mode two indicators are incomparable exactly when they
    agree on the profit and on the five tie-break fields; [priority_sum]
    and the cost may differ. *)
Theorem profit_mode_incomparable_iff (a b : SolutionIndicators) :
  using_priorities a b = true ->
  (incomparable a b <->
   spec_profit a = spec_profit b /\
   assigned a = assigned b /\ used_vehicles a = used_vehicles b /\
   duration (eval a) = duration (eval b) /\
   distance (eval a) = distance (eval b) /\
   routes_hash a = routes_hash b).
Proof.
  intros Hu. rewrite incomparable_keys, Hu.
  unfold profit_key. rewrite !profit_spec_profit. split.
  - intros Hkey. injection Hkey as Hp Ha Hv Hdu Hdi Hh.
    repeat split; lia.
  - intros (Hp & Ha & Hv & Hdu & Hdi & Hh). congruence.
Qed.

(** Within one priority regime incomparability is transitive, which with
    asymmetry and transitivity makes the comparator a strict weak
    ordering there. *)
Theorem incomparable_transitive_same_regime (a b c : SolutionIndicators) :
  same_regime a b c ->
  incomparable a b -> incomparable b c -> incomparable a c.
Proof.
  rewrite !incomparable_keys.
  intros [(Ha & Hb & Hc) | (Ha & Hb & Hc)].
  - rewrite !(proj2 (using_priorities_true _ _)) by auto. congruence.
  - rewrite !(proj2 (using_priorities_false _ _)) by auto. congruence.
Qed.

(** ** Profit against the other criteria *)

Lemma profit_operand_exact (s : SolutionIndicators) :
  profit_operand_in_range s -> spec_profit s = exact_profit s.
Proof.
  intros [Hp Hc]. unfold spec_profit, exact_profit.
  apply to_int64_small. unfold SCALE.
  assert (Hp' : 0 <= Z.of_N (priority_sum s) < 2 ^ 32) by lia.
  lia.
Qed.

Lemma higher_spec_profit_wins (a b : SolutionIndicators) :
  using_priorities a b = true -> spec_profit b < spec_profit a ->
  betterThan a b = true.
Proof.
  intros Hu Hlt. unfold betterThan, operator_lt.
  rewrite Hu, profit_branch_spec. unfold betterThan_profit_spec.
  destruct (Z.eqb_spec (spec_profit a) (spec_profit b)) as [Heq|_]; [lia|].
  simpl. now apply Z.ltb_lt.
Qed.

(** In priority mode the higher profit wins whatever the assigned count,
    the number of vehicles, the duration, the distance and the hash are:
    unlike in lexicographic mode, more assigned jobs do not come first. *)
Theorem higher_profit_wins (a b : SolutionIndicators) :
  using_priorities a b = true ->
  profit_operand_in_range a -> profit_operand_in_range b ->
  exact_profit b < exact_profit a ->
  betterThan a b = true /\ betterThan b a = false.
Proof.
  intros Hu Ha Hb Hlt.
  assert (Hab : betterThan a b = true).
  { apply higher_spec_profit_wins; [exact Hu|].
    now rewrite !profit_operand_exact. }
  split; [exact Hab|]. now apply operator_lt_asym.
Qed.

(** More priority wins as long as it costs less than [SCALE] per
    additional priority point. *)
Theorem priority_outweighs_cost (a b : SolutionIndicators) :
  (priority_sum b < priority_sum a)%N ->
  profit_operand_in_range a -> profit_operand_in_range b ->
  cost (eval a) - cost (eval b)
  < SCALE * (Z.of_N (priority_sum a) - Z.of_N (priority_sum b)) ->
  betterThan a b = true.
Proof.
  intros Hp Ha Hb Hc.
  apply higher_spec_profit_wins.
  - apply using_priorities_true. left. lia.
  - rewrite !profit_operand_exact by assumption. unfold exact_profit. lia.
Qed.

(** ** Further properties of the aggregating constructor *)


Lemma wrap_unsigned_add (bits : N) (x y : Z) :
  wrap_unsigned bits (wrap_unsigned bits x + wrap_unsigned bits y)
  = wrap_unsigned bits (x + y).
Proof. unfold wrap_unsigned. symmetry. apply Zplus_mod. Qed.

Lemma to_unsigned_add (bits : N) (x y : Z) :
  Z.to_N (wrap_unsigned bits
            (Z.of_N (Z.to_N (wrap_unsigned bits x))
             + Z.of_N (Z.to_N (wrap_unsigned bits y))))
  = Z.to_N (wrap_unsigned bits (x + y)).
Proof.
  rewrite !Z2N.id by apply wrap_unsigned_range.
  now rewrite wrap_unsigned_add.
Qed.

Section AggregatorFurther.

Context {Input Route Job : Type} `{RouteLike Route Job}.
Variable Priority_bits : N.
Variable Index_bits : N.
Variable priority_sum_for_route : Input -> list Job -> N.
Variable route_eval_for_vehicle : Input -> N -> list Job -> Eval.
Variable get_vector_hash : list N -> N.

#[local] Abbreviation ctor' :=
  (SolutionIndicators_ctor Priority_bits Index_bits priority_sum_for_route
                           route_eval_for_vehicle get_vector_hash).
#[local] Abbreviation ptotal' := (priority_total priority_sum_for_route).

(** The three counters of the constructed value, in closed form. *)
Lemma ctor_counters (input : Input) (sol : list Route) :
  priority_sum (ctor' input sol) = to_Priority Priority_bits (ptotal' input sol)
  /\ assigned (ctor' input sol) = to_uint32 (assigned_total sol)
  /\ used_vehicles (ctor' input sol)
     = to_uint32 (Z.of_nat (count_non_empty sol)).
Proof.
  unfold SolutionIndicators_ctor, SolutionIndicators_ctor_from.
  rewrite ctor_loop_closed. unfold loop_state. simpl. repeat split.
Qed.

Lemma ctor_routes_hash (input : Input) (sol : list Route) :
  routes_hash (ctor' input sol)
  = get_vector_hash
      (ranges_sort (map (fun n => to_uint32 (Z.of_N n)) (map size sol))).
Proof.
  unfold SolutionIndicators_ctor, SolutionIndicators_ctor_from, routes_sizes.
  cbn [routes_hash]. now rewrite map_map.
Qed.


Lemma count_non_empty_app (l1 l2 : list Route) :
  count_non_empty (l1 ++ l2) = (count_non_empty l1 + count_non_empty l2)%nat.
Proof. unfold count_non_empty. now rewrite filter_app, length_app. Qed.

Lemma count_non_empty_cons (r : Route) (sol : list Route) :
  count_non_empty (r :: sol)
  = ((if negb (empty r) then 1 else 0) + count_non_empty sol)%nat.
Proof.
  unfold count_non_empty. rewrite filter_cons.
  destruct (decide (negb (empty r) = true)) as [He|He].
  - now rewrite He.
  - apply not_true_is_false in He. now rewrite He.
Qed.

Lemma assigned_total_cons (r : Route) (sol : list Route) :
  assigned_total (r :: sol) = Z.of_nat (length (route r)) + assigned_total sol.
Proof. reflexivity. Qed.


(** The hash depends on the multiset of route sizes and on nothing else:
    not on the instance, not on which jobs the routes hold. *)
Theorem routes_hash_sizes_only (input input' : Input) (sol sol' : list Route) :
  collected_sizes sol ≡ₚ collected_sizes sol' ->
  routes_hash
    (SolutionIndicators_ctor Priority_bits Index_bits priority_sum_for_route
       route_eval_for_vehicle get_vector_hash input sol)
  = routes_hash
      (SolutionIndicators_ctor Priority_bits Index_bits priority_sum_for_route
         route_eval_for_vehicle get_vector_hash input' sol').
Proof.
  unfold collected_sizes. intros Hperm. rewrite !ctor_routes_hash. f_equal.
  apply ranges_sort_permutation_invariant.
  now apply Permutation_map.
Qed.

(** The counters are additive over concatenation, in the arithmetic of
    their types: aggregating [l1 ++ l2] adds up what aggregating [l1] and
    [l2] separately gives. *)
Theorem ctor_app_counters (input : Input) (l1 l2 : list Route) :
  let s1 :=
    SolutionIndicators_ctor Priority_bits Index_bits priority_sum_for_route
      route_eval_for_vehicle get_vector_hash input l1 in
  let s2 :=
    SolutionIndicators_ctor Priority_bits Index_bits priority_sum_for_route
      route_eval_for_vehicle get_vector_hash input l2 in
  let s :=
    SolutionIndicators_ctor Priority_bits Index_bits priority_sum_for_route
      route_eval_for_vehicle get_vector_hash input (l1 ++ l2) in
  priority_sum s
  = to_Priority Priority_bits
      (Z.of_N (priority_sum s1) + Z.of_N (priority_sum s2)) /\
  assigned s = to_uint32 (Z.of_N (assigned s1) + Z.of_N (assigned s2)) /\
  used_vehicles s
  = to_uint32 (Z.of_N (used_vehicles s1) + Z.of_N (used_vehicles s2)).
Proof.
  cbv zeta.
  destruct (ctor_counters input l1) as (-> & -> & ->).
  destruct (ctor_counters input l2) as (-> & -> & ->).
  destruct (ctor_counters input (l1 ++ l2)) as (-> & -> & ->).
  unfold to_Priority, to_uint32. rewrite !to_unsigned_add.
  unfold priority_total, assigned_total.
  rewrite !map_app, !Zsum_app, count_non_empty_app, Nat2Z.inj_add.
  repeat split.
Qed.

Lemma all_empty_totals (sol : list Route) :
  Forall is_empty_route sol ->
  assigned_total sol = 0 /\ count_non_empty sol = 0%nat.
Proof.
  induction 1 as [|r sol [He Hr] _ [IHa IHc]]; [split; reflexivity|].
  rewrite assigned_total_cons, count_non_empty_cons, He, Hr, IHa, IHc.
  split; reflexivity.
Qed.

(** A collection of empty routes, however many, aggregates to no assigned
    job and no used vehicle. *)
Theorem ctor_all_empty (input : Input) (sol : list Route) :
  Forall is_empty_route sol ->
  let s :=
    SolutionIndicators_ctor Priority_bits Index_bits priority_sum_for_route
      route_eval_for_vehicle get_vector_hash input sol in
  assigned s = 0%N /\ used_vehicles s = 0%N.
Proof.
  intros Hall. cbv zeta.
  destruct (ctor_counters input sol) as (_ & -> & ->).
  destruct (all_empty_totals sol Hall) as [-> ->].
  split; reflexivity.
Qed.

Lemma count_non_empty_le_assigned_total (sol : list Route) :
  Forall empty_agrees_with_route sol ->
  Z.of_nat (count_non_empty sol) <= assigned_total sol.
Proof.
  induction 1 as [|r sol Hr _ IH]; [reflexivity|].
  rewrite assigned_total_cons, count_non_empty_cons.
  unfold empty_agrees_with_route in Hr. rewrite Hr.
  destruct (route r) as [|j js]; simpl negb; cbn [length]; lia.
Qed.

(** When [r.empty()] answers for [r.route] and the job count fits
    [unsigned], the constructed value never has more used vehicles than
    assigned jobs. *)
Theorem used_vehicles_le_assigned (input : Input) (sol : list Route) :
  Forall empty_agrees_with_route sol ->
  assigned_total sol < 2 ^ 32 ->
  let s :=
    SolutionIndicators_ctor Priority_bits Index_bits priority_sum_for_route
      route_eval_for_vehicle get_vector_hash input sol in
  (used_vehicles s <= assigned s)%N.
Proof.
  intros Hagree Hfit. cbv zeta.
  destruct (ctor_counters input sol) as (_ & -> & ->).
  pose proof (count_non_empty_le_assigned_total sol Hagree) as Hle.
  unfold to_uint32. rewrite !wrap_unsigned_small by lia. lia.
Qed.

(** Whatever the delegated default constructor left in [routes_hash], the
    constructor returns the same value: the member is always overwritten
    with the hash of the sorted route sizes. *)
Theorem ctor_overwrites_routes_hash (h1 h2 : N) (input : Input)
  (sol : list Route) :
  SolutionIndicators_ctor_from Priority_bits Index_bits priority_sum_for_route
    route_eval_for_vehicle get_vector_hash h1 input sol
  = SolutionIndicators_ctor_from Priority_bits Index_bits
      priority_sum_for_route route_eval_for_vehicle get_vector_hash
      h2 input sol
  /\ routes_hash
       (SolutionIndicators_ctor_from Priority_bits Index_bits
          priority_sum_for_route route_eval_for_vehicle get_vector_hash
          h1 input sol)
     = get_vector_hash
         (ranges_sort (map (fun r => to_uint32 (Z.of_N (size r))) sol)).
Proof.
  split; [apply ctor_from_indep | reflexivity].
Qed.

End AggregatorFurther.

(** ** Concrete instances of the further properties *)

Lemma lexicographic_mode_total_witness :
  let a := mkSolutionIndicators 0 10 (mkEval 500 30 40) 2 7 in
  let b := mkSolutionIndicators 0 10 (mkEval 500 30 41) 2 7 in
  betterThan a b || betterThan b a = true.
Proof.
  intros a b.
  apply (lexicographic_mode_total a b); [reflexivity | reflexivity | discriminate].
Defined.

Lemma profit_mode_incomparable_iff_witness :
  incomparable (mkSolutionIndicators 1 7 (mkEval 1000 50 60) 2 99)
               (mkSolutionIndicators 2 7 (mkEval 361000 50 60) 2 99).
Proof.
  apply (proj2 (profit_mode_incomparable_iff
                  (mkSolutionIndicators 1 7 (mkEval 1000 50 60) 2 99)
                  (mkSolutionIndicators 2 7 (mkEval 361000 50 60) 2 99)
                  eq_refl)).
  repeat split.
Defined.

Lemma incomparable_transitive_same_regime_witness :
  incomparable (mkSolutionIndicators 1 7 (mkEval 1000 50 60) 2 99)
               (mkSolutionIndicators 3 7 (mkEval 721000 50 60) 2 99).
Proof.
  apply (incomparable_transitive_same_regime
           (mkSolutionIndicators 1 7 (mkEval 1000 50 60) 2 99)
           (mkSolutionIndicators 2 7 (mkEval 361000 50 60) 2 99)
           (mkSolutionIndicators 3 7 (mkEval 721000 50 60) 2 99)).
  - left. repeat split.
  - split; reflexivity.
  - split; reflexivity.
Defined.

Lemma higher_profit_wins_witness :
  let a := mkSolutionIndicators 3 4 (mkEval 2000 90 90) 5 8 in
  let b := mkSolutionIndicators 3 9 (mkEval 2500 10 10) 1 2 in
  betterThan a b = true /\ betterThan b a = false.
Proof.
  intros a b. apply (higher_profit_wins a b).
  - reflexivity.
  - split; [reflexivity | simpl; lia].
  - split; [reflexivity | simpl; lia].
  - reflexivity.
Defined.

Lemma priority_outweighs_cost_witness :
  let a := mkSolutionIndicators 6 4 (mkEval 359999 90 90) 5 8 in
  let b := mkSolutionIndicators 5 9 (mkEval 0 10 10) 1 2 in
  betterThan a b = true.
Proof.
  intros a b. apply (priority_outweighs_cost a b).
  - reflexivity.
  - split; [reflexivity | simpl; lia].
  - split; [reflexivity | simpl; lia].
  - reflexivity.
Defined.


Lemma routes_hash_sizes_only_witness :
  routes_hash (sample_ctor sample_input [[0; 2]; []; [4; 3; 1]]%nat)
  = routes_hash
      (sample_ctor (mkSampleInput [9; 9; 9; 9; 9]%N [1; 2; 3])
                   [[]; [1; 2; 3]; [4; 0]]%nat).
Proof.
  apply (routes_hash_sizes_only 32 16 sample_priority_sum_for_route
           sample_route_eval_for_vehicle sample_vector_hash).
  apply (Permutation_cons_append [0; 3]%N 2%N).
Defined.

Lemma ctor_all_empty_witness :
  let s := sample_ctor sample_input [[]; []; []] in
  assigned s = 0%N /\ used_vehicles s = 0%N.
Proof.
  apply (ctor_all_empty 32 16 sample_priority_sum_for_route
           sample_route_eval_for_vehicle sample_vector_hash sample_input).
  repeat (constructor; [split; reflexivity|]). constructor.
Defined.

Lemma used_vehicles_le_assigned_witness :
  let s := sample_ctor sample_input [[0; 2]; []; [4; 3; 1]]%nat in
  (used_vehicles s <=? assigned s)%N = true.
Proof.
  intros s. apply N.leb_le.
  apply (used_vehicles_le_assigned 32 16 sample_priority_sum_for_route
           sample_route_eval_for_vehicle sample_vector_hash sample_input).
  - repeat (constructor; [reflexivity|]). constructor.
  - vm_compute. reflexivity.
Defined.
